(** * A shallow embedding of the IR data model and the reaching-definitions
    lattice of compiler-backend (src/reach_lattice.rs, src/ir/mod.rs,
    src/ir/ops.rs). *)

From Stdlib Require Import List Bool Arith ZArith String Lia Sorted.
Import ListNotations.
Open Scope nat_scope.

(** ** Panics of the Rust code

    A Rust function that may panic is modelled as returning [Result A]:
    [Ok] carries the value, [Panic] the reason it aborts. *)

Inductive PanicKind :=
| Todo                       (* todo!() *)
| Unimplemented (msg : string) (* unimplemented!(msg) *)
| UnwrapNone                 (* Option::unwrap on None *)
| AddOverflow                (* `+` on i64 with overflow checks on *)
| IndexOutOfBounds.          (* assert! of FixedBitSet::set *)

Inductive Result (A : Type) :=
| Ok (a : A)
| Panic (k : PanicKind).
Arguments Ok {A} a.
Arguments Panic {A} k.

(** ** FixedBitSet

    A [FixedBitSet] of length [n] is its list of [n] bits.  The crate keeps
    the unused bits of the last block at zero, so reading past the length
    yields [false] and the derived equality (blocks and length) is list
    equality. *)
Module FixedBitSet.

Definition t := list bool.

Definition bit (s : t) (i : nat) : bool := nth i s false.

Definition len (s : t) : nat := List.length s.

(** [FixedBitSet::with_capacity(n)]: [n] zero bits. *)
Definition with_capacity (n : nat) : t := repeat false n.

(** [toggle_range(..)]: flip every bit below the length. *)
Definition toggle_all (s : t) : t := map negb s.

(** [intersect_with]: keeps the length of [self]; bits past the length of
    [other] are cleared. *)
Definition intersect_with (self other : t) : t :=
  map (fun i => bit self i && bit other i) (seq 0 (len self)).

(** [union_with]: grows [self] to the length of [other] when [other] is
    at least as long, then ors the blocks. *)
Definition union_with (self other : t) : t :=
  map (fun i => bit self i || bit other i) (seq 0 (Nat.max (len self) (len other))).

(** [set(i, v)] on an index below the length. *)
Fixpoint set (s : t) (i : nat) (v : bool) : t :=
  match s, i with
  | [], _ => []
  | _ :: r, 0 => v :: r
  | b :: r, S j => b :: set r j v
  end.

(** [set(i, v)]: asserts [i < len]. *)
Definition set_checked (s : t) (i : nat) (v : bool) : Result t :=
  if i <? len s then Ok (set s i v) else Panic IndexOutOfBounds.

(** [Index<usize>] reads [contains], which is [false] out of range. *)
Definition index (s : t) (i : nat) : bool := bit s i.

Definition eqb (a b : t) : bool := if list_eq_dec Bool.bool_dec a b then true else false.

End FixedBitSet.

(** ** IR (src/ir/ops.rs, src/ir/mod.rs) *)

Inductive CompareType := Less | Greater | Eq | NotEq | LessEqual | GreaterEqual.

Inductive UnaryOp := Not | Negative | Unit.

Inductive BinaryOp :=
| Add | Sub | Mul | Div
| Compare (c : CompareType)
| And | Or | Xor.

Definition SpaceNameId := nat.
Definition FunctionNameId := nat.
Definition BlockNameId := nat.

Record AddressMarker := { block_id : BlockNameId }.

Inductive Operation :=
| OpBinary (op : BinaryOp) (l r : SpaceNameId)
| OpUnary (op : UnaryOp) (x : SpaceNameId)
| OpCompare (c : CompareType) (l r : SpaceNameId)
| OpCall (f : FunctionNameId).

Inductive CommandOperation := Store (dest src : SpaceNameId).

Inductive JumpOperation :=
| Unconditional (m : AddressMarker)
| Branch (c : SpaceNameId) (t f : AddressMarker)
| Next
| End
| Ret (v : SpaceNameId).

Record IRInformation := { declaration_number : option nat }.

Inductive IR :=
| Assignment (dest : SpaceNameId) (op : Operation) (info : IRInformation)
| Jump (j : JumpOperation) (info : IRInformation)
| Command (c : CommandOperation) (info : IRInformation).

(** Modelled from the spec: [CodeBlock], [CodeBlockAnalysisNode] and
    [CodeBlockGraphWeight] of src/ir/block.rs (not in the sources): a block
    is its instruction sequence; the analysis node holds the block and the
    reaching-definitions facts; the graph weight holds [assignment_count]
    and [variable_assignment_map] (Space id to declaration numbers). *)
Record CodeBlock := { irs_range : list IR }.

Record CodeBlockAnalysisNode := {
  node_block : CodeBlock;
  reach_in : FixedBitSet.t;
  reach_out : FixedBitSet.t }.

Record CodeBlockGraphWeight := {
  assignment_count : nat;
  variable_assignment_map : list (SpaceNameId * list nat) }.

(** The data-flow graph: only its weight is read by the transfer functions. *)
Record DataFlowGraph := {
  graph_nodes : list CodeBlockAnalysisNode;
  weight : CodeBlockGraphWeight }.

(** ** SemiLattice instances (src/reach_lattice.rs) *)

Class SemiLattice (L : Type) := {
  meet : L -> L -> L;
  (** [meet_with(&mut self, other)]: the new [self] and the returned flag *)
  meet_with : L -> L -> L * bool }.

(** [impl SemiLattice for bool] *)
Definition bool_meet (self other : bool) : bool := self || other.

Definition bool_meet_with (self other : bool) : bool * bool :=
  if Bool.eqb self other then (self, false) else (other, true).

#[export] Instance SemiLattice_bool : SemiLattice bool :=
  { meet := bool_meet; meet_with := bool_meet_with }.

(** [ReachLattice { value: FixedBitSet }] *)
Record ReachLattice := { value : FixedBitSet.t }.

Definition ReachLattice_new (capacity : nat) : ReachLattice :=
  {| value := FixedBitSet.with_capacity capacity |}.

Definition reach_meet (self other : ReachLattice) : ReachLattice :=
  {| value := FixedBitSet.union_with (value self) (value other) |}.

Definition reach_meet_with (self other : ReachLattice) : ReachLattice * bool :=
  if FixedBitSet.eqb (value self) (value other) then (self, false)
  else ({| value := FixedBitSet.union_with (value self) (value other) |}, true).

#[export] Instance SemiLattice_ReachLattice : SemiLattice ReachLattice :=
  { meet := reach_meet; meet_with := reach_meet_with }.

(** [impl ProductLattice<bool> for ReachLattice]: [get(index)]. *)
Definition reach_get (self : ReachLattice) (index : nat) : option bool :=
  if FixedBitSet.len (value self) <=? index then None
  else Some (FixedBitSet.index (value self) index).

(** ** gen / kill (src/reach_lattice.rs) *)

(** [ReachLattice::gen_var] *)
Definition gen_var (ir : IR) (w : CodeBlockGraphWeight) : Result ReachLattice :=
  let set := FixedBitSet.with_capacity (assignment_count w) in
  match ir with
  | Assignment _ _ info =>
      match declaration_number info with
      | Some d =>
          match FixedBitSet.set_checked set d true with
          | Ok s => Ok {| value := s |}
          | Panic k => Panic k
          end
      | None => Ok {| value := set |}
      end
  | _ => Ok {| value := set |}
  end.

(** [ReachLattice::kill_var]: the body is [todo!()] (the intended body is
    commented out in the source). *)
Definition kill_var (ir : IR) (w : CodeBlockGraphWeight) : Result ReachLattice :=
  Panic Todo.

(** [ReachLattice::kill_mask_var] *)
Definition kill_mask_var (ir : IR) (w : CodeBlockGraphWeight) : Result ReachLattice :=
  match kill_var ir w with
  | Ok s => Ok {| value := FixedBitSet.toggle_all (value s) |}
  | Panic k => Panic k
  end.

(** ** BlockTransfer for CodeBlockAnalysisNode *)

(** [transfer_forward]: the reverse scan over [irs_range] is commented out
    in the source, so [current_gen] stays empty and [current_kill_mask]
    stays all ones. *)
Definition transfer_forward (self : CodeBlockAnalysisNode) (in_value : ReachLattice)
  (graph : DataFlowGraph) : ReachLattice :=
  let n := assignment_count (weight graph) in
  let current_gen := FixedBitSet.with_capacity n in
  let current_kill_mask := FixedBitSet.toggle_all (FixedBitSet.with_capacity n) in
  let res_out := FixedBitSet.intersect_with (value in_value) current_kill_mask in
  let res_out := FixedBitSet.union_with res_out current_gen in
  {| value := res_out |}.

(** [transfer_backward]: [todo!()]. *)
Definition transfer_backward (self : CodeBlockAnalysisNode) (out_value : ReachLattice)
  (graph : DataFlowGraph) : Result ReachLattice :=
  Panic Todo.

(** [top] and [entry_out] *)
Definition top (graph : DataFlowGraph) : ReachLattice :=
  ReachLattice_new (assignment_count (weight graph)).

Definition entry_out (graph : DataFlowGraph) : ReachLattice := top graph.

(** [exit_in]: [unimplemented!("Invalid data flow")]. *)
Definition exit_in (graph : DataFlowGraph) : Result ReachLattice :=
  Panic (Unimplemented "Invalid data flow").

Definition bottom (graph : DataFlowGraph) : ReachLattice :=
  {| value := FixedBitSet.toggle_all (value (top graph)) |}.

(** ** Literal values (src/ir/mod.rs) *)

Set Warnings "-register-all".

(** [DataType] of src/ir/ops.rs ([I64], [F64], [Bool], [Array]) together
    with the variants src/ir/mod.rs matches on ([Struct] with its member
    types, [Void]). *)
Inductive DataType :=
| I64 | F64 | TBool
| Array (elem : DataType) (len : nat)
| Struct (members : list DataType)
| Void.

Record IntValue := { int_value : Z }.

Inductive Value :=
| VInt (i : IntValue)
| VArray (ids : list SpaceNameId)
| VStruct (ids : list SpaceNameId)
| VVoid.

(** The derived [PartialEq]/[Eq] on [Value]. *)
Definition Value_eq_dec (a b : Value) : {a = b} + {a <> b}.
Proof.
  decide equality; try apply (list_eq_dec Nat.eq_dec).
  destruct i, i0. destruct (Z.eq_dec int_value0 int_value1); [left | right]; congruence.
Defined.

Definition Value_eqb (a b : Value) : bool := if Value_eq_dec a b then true else false.

Definition i64_min : Z := (- 2 ^ 63)%Z.
Definition i64_max : Z := (2 ^ 63 - 1)%Z.
Definition in_i64 (z : Z) : bool := (i64_min <=? z)%Z && (z <=? i64_max)%Z.
Definition wrap_i64 (z : Z) : Z := ((z + 2 ^ 63) mod 2 ^ 64 - 2 ^ 63)%Z.

(** [a + b] on [i64]: with [overflow_checks] (the default debug profile)
    an out-of-range sum panics, without it (release) it wraps. *)
Definition i64_add (overflow_checks : bool) (a b : Z) : Result Z :=
  let s := (a + b)%Z in
  if in_i64 s then Ok s
  else if overflow_checks then Panic AddOverflow else Ok (wrap_i64 s).

(** [impl Literal for IntValue]: [binary].  The source's [match op] has no
    arm for [BinaryOp::Compare]; it is modelled as failing like the
    unfinished arms. *)
Definition IntValue_binary (overflow_checks : bool) (self : IntValue) (op : BinaryOp)
  (other : option IntValue) : Result IntValue :=
  match op with
  | Add =>
      match other with
      | Some o =>
          match i64_add overflow_checks (int_value self) (int_value o) with
          | Ok s => Ok {| int_value := s |}
          | Panic k => Panic k
          end
      | None => Panic UnwrapNone
      end
  | Sub | Mul | Div | And | Or | Xor => Panic Todo
  | Compare _ => Panic Todo
  end.

Definition IntValue_static_cmp (self : IntValue) (cmp : CompareType)
  (other : option IntValue) : Result bool := Panic Todo.

Definition IntValue_unary (self : IntValue) (op : UnaryOp)
  (other : option IntValue) : Result IntValue := Panic Todo.

(** ** Storage model *)

Inductive Scope := Global | Local (fn_name_id : SpaceNameId).

Inductive SpaceSignature :=
| Normal (ty : option DataType) (members : list SpaceNameId)
| Offset (base : SpaceNameId) (off : nat) (ty : option DataType) (members : list SpaceNameId).

Definition get_type (s : SpaceSignature) : option DataType :=
  match s with
  | Normal ty _ => ty
  | Offset _ _ ty _ => ty
  end.

(** Modelled from the spec: [FlatLattice] of src/semilattice.rs (not in the
    sources): [Top], [Value(v)], [Bottom]. *)
Inductive FlatLattice (A : Type) := FTop | FValue (v : A) | FBottom.
Arguments FTop {A}.
Arguments FValue {A} v.
Arguments FBottom {A}.

Record Space := {
  signature : SpaceSignature;
  scope : Scope;
  space_value : FlatLattice Value }.

(** Modelled from the spec: [MonotonicNamedPool] of src/util.rs (not in the
    sources).  A pool hands out dense logical ids from [origin] upward, in
    insertion order, and stores the entity in its arena; the arena handle
    of logical id [origin + i] is [i]. *)
Record Pool := { origin : nat; arena : list Space }.

Definition pool_insert (p : Pool) (s : Space) : (SpaceNameId * nat) * Pool :=
  ((origin p + List.length (arena p), List.length (arena p)),
   {| origin := origin p; arena := arena p ++ [s] |}).

Definition pool_get_id (p : Pool) (name_id : SpaceNameId) : option nat :=
  if (origin p <=? name_id) && (name_id <? origin p + List.length (arena p))
  then Some (name_id - origin p) else None.

Definition pool_get (p : Pool) (id : nat) : option Space := nth_error (arena p) id.

(** Modelled from the spec: [MonotonicNameMap] of src/util.rs (not in the
    sources).  A name map binds keys to logical ids of the shared pool;
    [bind] puts the newest binding first (last bind wins). *)
Definition NameMap (K : Type) := list (K * SpaceNameId).

Fixpoint get_name_id {K} (eqb : K -> K -> bool) (m : NameMap K) (k : K) : option SpaceNameId :=
  match m with
  | [] => None
  | (k', v) :: r => if eqb k k' then Some v else get_name_id eqb r k
  end.

Definition bind {K} (m : NameMap K) (k : K) (name_id : SpaceNameId) : NameMap K :=
  (k, name_id) :: m.

Definition get_name_id_and_id {K} (eqb : K -> K -> bool) (m : NameMap K) (p : Pool)
  (k : K) : option (SpaceNameId * nat) :=
  match get_name_id eqb m k with
  | Some nid => option_map (fun id => (nid, id)) (pool_get_id p nid)
  | None => None
  end.

(** [get_id_or_insert(key, ctor)]; an id bound in a map of the pool is
    always in the pool, the model reports the other case as a panic. *)
Definition get_id_or_insert {K} (eqb : K -> K -> bool) (m : NameMap K) (p : Pool)
  (k : K) (ctor : SpaceNameId -> nat -> Space)
  : Result ((SpaceNameId * nat) * NameMap K * Pool) :=
  match get_name_id eqb m k with
  | Some nid =>
      match pool_get_id p nid with
      | Some id => Ok ((nid, id), m, p)
      | None => Panic UnwrapNone
      end
  | None =>
      let nid := origin p + List.length (arena p) in
      let id := List.length (arena p) in
      let '(r, p') := pool_insert p (ctor nid id) in
      Ok (r, bind m k nid, p')
  end.

(** The parts of [Program] the storage claims read: the shared Space pool
    and the [globals] and [constants] name maps over it. *)
Record Program := {
  space_pool : Pool;
  globals : NameMap string;
  constants : NameMap Value }.

(** The parts of [Function] the storage claims read. *)
Record Function := {
  fn_name_id : FunctionNameId;
  locals : NameMap string }.

Definition set_pool (P : Program) (p : Pool) : Program :=
  {| space_pool := p; globals := globals P; constants := constants P |}.

(** [declare_space]: aggregate members first, in order, then the aggregate. *)
Fixpoint decl_repeat (f : Pool -> (SpaceNameId * nat) * Pool) (n : nat) (p : Pool)
  : list SpaceNameId * Pool :=
  match n with
  | 0 => ([], p)
  | S k =>
      let '(r, p1) := f p in
      let '(ms, p2) := decl_repeat f k p1 in
      (fst r :: ms, p2)
  end.

Fixpoint decl_members (f : DataType -> Pool -> (SpaceNameId * nat) * Pool)
  (ts : list DataType) (p : Pool) : list SpaceNameId * Pool :=
  match ts with
  | [] => ([], p)
  | t :: r =>
      let '(res, p1) := f t p in
      let '(ms, p2) := decl_members f r p1 in
      (fst res :: ms, p2)
  end.

Fixpoint decl_ty (t : DataType) (sc : Scope) (p : Pool) {struct t}
  : (SpaceNameId * nat) * Pool :=
  let '(members, p1) :=
    match t with
    | Array elem_ty len => decl_repeat (decl_ty elem_ty sc) len p
    | Struct ms => decl_members (fun dt => decl_ty dt sc) ms p
    | _ => ([], p)
    end in
  pool_insert p1 {| signature := Normal (Some t) members; scope := sc;
                    space_value := FTop |}.

Definition declare_space (data_type : option DataType) (sc : Scope) (p : Pool)
  : (SpaceNameId * nat) * Pool :=
  match data_type with
  | Some t => decl_ty t sc p
  | None => pool_insert p {| signature := Normal None []; scope := sc;
                             space_value := FTop |}
  end.

(** [Function::declare_space] ([locals.insert_nameless]) and
    [Program::declare_space] ([space_pool.insert]) have the same body and
    both insert into the shared Space pool. *)
Definition Function_declare_space (F : Function) (P : Program) (data_type : option DataType)
  (sc : Scope) : (SpaceNameId * nat) * Program :=
  let '(r, p') := declare_space data_type sc (space_pool P) in (r, set_pool P p').

Definition Program_declare_space (P : Program) (data_type : option DataType)
  (sc : Scope) : (SpaceNameId * nat) * Program :=
  let '(r, p') := declare_space data_type sc (space_pool P) in (r, set_pool P p').

Definition declare_local (F : Function) (P : Program) (name : string)
  (data_type : option DataType) : (SpaceNameId * nat) * Program * Function :=
  let '((name_id, space_id), P') :=
    Function_declare_space F P data_type (Local (fn_name_id F)) in
  ((name_id, space_id), P',
   {| fn_name_id := fn_name_id F; locals := bind (locals F) name name_id |}).

Definition lookup_space (P : Program) (name_id : SpaceNameId) : option nat :=
  pool_get_id (space_pool P) name_id.

Definition lookup_global_by_name (P : Program) (name : string) : option (SpaceNameId * nat) :=
  get_name_id_and_id String.eqb (globals P) (space_pool P) name.

(** [Function::lookup_or_insert_space] *)
Definition lookup_or_insert_space (F : Function) (P : Program) (name : string)
  : Result ((SpaceNameId * nat) * Program * Function) :=
  match get_name_id String.eqb (locals F) name with
  | Some name_id =>
      match lookup_space P name_id with
      | Some id => Ok ((name_id, id), P, F)
      | None => Panic UnwrapNone
      end
  | None =>
      match lookup_global_by_name P name with
      | Some t => Ok (t, P, F)
      | None => Ok (declare_local F P name None)
      end
  end.

(** [Program::lookup_or_insert_constant] *)
Definition constant_ctor (data_type : DataType) (v : Value) (_ : SpaceNameId) (_ : nat) : Space :=
  let members := match v with
                 | VInt _ => []
                 | VArray ids => ids
                 | VStruct ids => ids
                 | VVoid => []
                 end in
  {| signature := Normal (Some data_type) members; scope := Global;
     space_value := FValue v |}.

Definition lookup_or_insert_constant (P : Program) (data_type : DataType) (v : Value)
  : Result ((SpaceNameId * nat) * Program) :=
  match get_id_or_insert Value_eqb (constants P) (space_pool P) v (constant_ctor data_type v) with
  | Ok (r, m', p') => Ok (r, {| space_pool := p'; globals := globals P; constants := m' |})
  | Panic k => Panic k
  end.

(** [Program::declare_global] *)
Definition declare_global (P : Program) (name : string) (data_type : option DataType)
  : (SpaceNameId * nat) * Program :=
  let '((name_id, id), P') := Program_declare_space P data_type Global in
  ((name_id, id), {| space_pool := space_pool P'; globals := bind (globals P') name name_id;
                     constants := constants P' |}).

(** [Program::lookup_or_insert_global] *)
Definition lookup_or_insert_global (P : Program) (name : string)
  : (SpaceNameId * nat) * Program :=
  match lookup_global_by_name P name with
  | Some t => (t, P)
  | None => declare_global P name None
  end.

(** Number of Spaces one [declare_space] of type [t] allocates: the
    aggregate itself and, recursively, its members. *)
Fixpoint space_count (t : DataType) : nat :=
  S match t with
    | Array e n => n * space_count e
    | Struct ts => fold_right (fun t acc => space_count t + acc) 0 ts
    | _ => 0
    end.

(** ** Ownership between Program and Function

    A small model of [Rc]: each heap object has a strong count and the
    strong handles stored in its fields.  Dropping the last strong handle
    frees the object and drops its fields.  [Weak] handles are not
    counted.  [RcRef<T>] is [Rc<RefCell<T>>]: [Program::new] returns the
    [Rc] built by [Rc::new_cyclic], whose type is [RcRef<Program>], and
    [weak_self.upgrade()] yields the [ProgramRef] given to [Function::new]. *)
Module RcHeap.

Record Obj := { strong : nat; fields : list nat }.

Record Heap := { cells : nat -> option Obj; next : nat }.

Definition upd (h : Heap) (a : nat) (o : option Obj) : Heap :=
  {| cells := fun b => if Nat.eqb a b then o else cells h b; next := next h |}.

(** [Rc::new]: a fresh object with strong count 1. *)
Definition alloc (h : Heap) (fs : list nat) : nat * Heap :=
  (next h, {| cells := fun b => if Nat.eqb (next h) b
                                then Some {| strong := 1; fields := fs |}
                                else cells h b;
              next := S (next h) |}).

(** [Rc::clone] / [Weak::upgrade] succeeding: one more strong handle. *)
Definition inc (h : Heap) (a : nat) : Heap :=
  match cells h a with
  | Some o => upd h a (Some {| strong := S (strong o); fields := fields o |})
  | None => h
  end.

(** Storing an owned handle [c] into a field of object [a]. *)
Definition store (h : Heap) (a c : nat) : Heap :=
  match cells h a with
  | Some o => upd h a (Some {| strong := strong o; fields := fields o ++ [c] |})
  | None => h
  end.

(** [drop] of one strong handle to [a]; [fuel] bounds the cascade. *)
Fixpoint drop (fuel : nat) (h : Heap) (a : nat) : Heap :=
  match fuel with
  | 0 => h
  | S f =>
      match cells h a with
      | None => h
      | Some o =>
          if Nat.eqb (strong o) 1
          then fold_left (drop f) (fields o) (upd h a None)
          else upd h a (Some {| strong := strong o - 1; fields := fields o |})
      end
  end.

Definition empty : Heap := {| cells := fun _ => None; next := 0 |}.

(** The Program object and the Function pool inside it, plus the names
    bound in [functions]. *)
Record World := {
  heap : Heap;
  program : nat;
  function_pool : nat;
  function_names : list string }.

(** [Program::new]: the three pools are [Rc]s owned by the Program; the
    [weak_self] back-reference is a [Weak] and adds no strong count.  The
    returned [Rc] is the caller's handle. *)
Definition program_new : World :=
  let '(sp, h1) := alloc empty [] in
  let '(bp, h2) := alloc h1 [] in
  let '(fp, h3) := alloc h2 [] in
  let '(pr, h4) := alloc h3 [sp; bp; fp] in
  {| heap := h4; program := pr; function_pool := fp; function_names := [] |}.

(** [Program::lookup_or_insert_function(name)]: for a new name,
    [self.weak_self.upgrade().unwrap()] makes a strong handle that is moved
    into [Function::new]; there [program: program.clone()] stores a second
    one in the Function and the parameter is dropped on return.  The new
    Function is stored in the Function pool. *)
Definition lookup_or_insert_function (w : World) (name : string) : World :=
  if existsb (String.eqb name) (function_names w) then w
  else
    let h1 := inc (heap w) (program w) in          (* upgrade() *)
    let h2 := inc h1 (program w) in                 (* program.clone() *)
    let '(f, h3) := alloc h2 [program w] in         (* Function { program, .. } *)
    let h4 := drop 1 h3 (program w) in              (* parameter dropped *)
    let h5 := store h4 (function_pool w) f in       (* stored in the pool *)
    {| heap := h5; program := program w; function_pool := function_pool w;
       function_names := name :: function_names w |}.

(** The caller drops its [ProgramRef]. *)
Definition drop_program_root (w : World) : Heap :=
  drop 100 (heap w) (program w).

Definition alive (h : Heap) (a : nat) : bool :=
  match cells h a with Some _ => true | None => false end.

End RcHeap.

(** * Properties *)

(** ** Sample inputs *)

Definition info (d : nat) : IRInformation := {| declaration_number := Some d |}.

(** A straight-line block [s1 = s1 + s1; s2 = s2 + s2; s3 = s3 + s3; end]
    with declaration numbers 0, 1, 2 over three distinct Spaces. *)
Definition straight_block : CodeBlockAnalysisNode :=
  {| node_block := {| irs_range :=
       [Assignment 1 (OpBinary Add 1 1) (info 0);
        Assignment 2 (OpBinary Add 2 2) (info 1);
        Assignment 3 (OpBinary Add 3 3) (info 2);
        Jump End {| declaration_number := None |}] |};
     reach_in := FixedBitSet.with_capacity 3;
     reach_out := FixedBitSet.with_capacity 3 |}.

Definition straight_graph : DataFlowGraph :=
  {| graph_nodes := [straight_block];
     weight := {| assignment_count := 3;
                  variable_assignment_map := [(1, [0]); (2, [1]); (3, [2])] |} |}.

Example gen_var_sample :
  gen_var (Assignment 2 (OpBinary Add 2 2) (info 1)) (weight straight_graph)
  = Ok {| value := [false; true; false] |}.
Proof. reflexivity. Qed.

Example transfer_forward_sample :
  value (transfer_forward straight_block (ReachLattice_new 3) straight_graph)
  = [false; false; false].
Proof. reflexivity. Qed.

(** ** FixedBitSet lemmas *)

Lemma map_seq_nth (s : list bool) :
  map (fun i => nth i s false) (seq 0 (List.length s)) = s.
Proof.
  induction s as [| b s IH]; [reflexivity |].
  simpl. f_equal. rewrite <- seq_shift, map_map. simpl. exact IH.
Qed.

Lemma bit_repeat (b : bool) (n i : nat) :
  FixedBitSet.bit (repeat b n) i = if i <? n then b else false.
Proof.
  unfold FixedBitSet.bit. revert i. induction n as [| n IH]; intros [| i]; simpl; auto.
Qed.

Lemma intersect_all_ones (s : FixedBitSet.t) :
  FixedBitSet.intersect_with s (FixedBitSet.toggle_all (FixedBitSet.with_capacity (List.length s))) = s.
Proof.
  unfold FixedBitSet.intersect_with, FixedBitSet.toggle_all, FixedBitSet.with_capacity.
  rewrite map_repeat. simpl.
  rewrite <- (map_seq_nth s) at 2.
  apply map_ext_in. intros i Hi. apply in_seq in Hi.
  rewrite bit_repeat. replace (i <? List.length s) with true by (symmetry; apply Nat.ltb_lt; lia).
  apply andb_true_r.
Qed.

Lemma union_with_zeros (s : FixedBitSet.t) :
  FixedBitSet.union_with s (FixedBitSet.with_capacity (List.length s)) = s.
Proof.
  unfold FixedBitSet.union_with, FixedBitSet.len, FixedBitSet.with_capacity.
  rewrite repeat_length, Nat.max_id.
  rewrite <- (map_seq_nth s) at 2.
  apply map_ext. intros i. rewrite bit_repeat. destruct (i <? List.length s); apply orb_false_r.
Qed.

Lemma intersect_with_length (a b : FixedBitSet.t) :
  List.length (FixedBitSet.intersect_with a b) = List.length a.
Proof. unfold FixedBitSet.intersect_with. now rewrite length_map, length_seq. Qed.

(** ** Reaching-definitions transfer *)

(** C1: [transfer_forward] does not read the block: for any node and any
    fact [in] over the [assignment_count] universe it returns [in] itself
    (its kill mask is all ones and its gen set empty), so on the
    straight-line block with declarations 0, 1, 2 and [in = {}] it returns
    [{}], not [{0, 1, 2}]. *)
Theorem transfer_forward_returns_input (node : CodeBlockAnalysisNode) (in_value : ReachLattice)
  (graph : DataFlowGraph) :
  FixedBitSet.len (value in_value) = assignment_count (weight graph) ->
  transfer_forward node in_value graph = in_value.
Proof.
  intros Hlen. destruct in_value as [s]. unfold transfer_forward. simpl in *.
  unfold FixedBitSet.len in Hlen. rewrite <- Hlen, intersect_all_ones.
  rewrite union_with_zeros. reflexivity.
Qed.

Lemma transfer_forward_returns_input_witness :
  FixedBitSet.len (value (ReachLattice_new 3)) = assignment_count (weight straight_graph) /\
  transfer_forward straight_block (ReachLattice_new 3) straight_graph = ReachLattice_new 3 /\
  value (ReachLattice_new 3) <> [true; true; true].
Proof.
  split; [reflexivity |]. split.
  - apply (transfer_forward_returns_input straight_block (ReachLattice_new 3) straight_graph).
    reflexivity.
  - simpl. discriminate.
Defined.

(** ** meet / meet_with *)

(** C2: [meet_with] disagrees with [meet] on [bool] ([true] met with
    [false]: [meet] gives [true], [meet_with] leaves [false]), and on
    [ReachLattice] it reports a change for [{0,1}] met with [{0}] although
    the value is unchanged. *)
Theorem meet_with_diverges_from_meet :
  bool_meet_with true false = (false, true) /\ bool_meet true false = true /\
  reach_meet_with {| value := [true; true] |} {| value := [true; false] |}
    = ({| value := [true; true] |}, true) /\
  reach_meet {| value := [true; true] |} {| value := [true; false] |}
    = {| value := [true; true] |}.
Proof. repeat split; reflexivity. Qed.

(** [meet_with] on [ReachLattice] does leave [self] equal to [meet]. *)
Lemma reach_meet_with_value (a b : ReachLattice) :
  fst (reach_meet_with a b) = reach_meet a b.
Proof.
  destruct a as [sa], b as [sb]. unfold reach_meet_with, reach_meet, FixedBitSet.eqb. simpl.
  destruct (list_eq_dec bool_dec sa sb) as [-> |]; simpl; [| reflexivity].
  f_equal. unfold FixedBitSet.union_with, FixedBitSet.len. rewrite Nat.max_id.
  rewrite <- (map_seq_nth sb) at 1. apply map_ext. intros i.
  unfold FixedBitSet.bit. symmetry. apply orb_diag.
Qed.

(** ** kill_var *)

(** C3: [kill_var] is [todo!()]: it panics on every instruction, with or
    without a declaration number, and so does [kill_mask_var]. *)
Theorem kill_var_panics (ir : IR) (w : CodeBlockGraphWeight) :
  kill_var ir w = Panic Todo /\ kill_mask_var ir w = Panic Todo.
Proof. split; reflexivity. Qed.

(** ** Unused backward direction *)

(** C8: [transfer_backward] ([todo!()]) and [exit_in]
    ([unimplemented!]) panic on every input and never return a value. *)
Theorem backward_direction_panics (node : CodeBlockAnalysisNode) (out_value : ReachLattice)
  (graph : DataFlowGraph) :
  transfer_backward node out_value graph = Panic Todo /\
  exit_in graph = Panic (Unimplemented "Invalid data flow") /\
  (forall r, transfer_backward node out_value graph <> Ok r) /\
  (forall r, exit_in graph <> Ok r).
Proof. repeat split; intros; discriminate. Qed.

(** ** ProductLattice::get *)

(** C10: [get(index)] is [None] exactly at indices at or past the length
    and [Some] of the bit below it. *)
Theorem reach_get_total (r : ReachLattice) (i : nat) :
  (reach_get r i = None <-> FixedBitSet.len (value r) <= i) /\
  (i < FixedBitSet.len (value r) -> reach_get r i = Some (nth i (value r) false)).
Proof.
  unfold reach_get. split.
  - destruct (Nat.leb_spec (FixedBitSet.len (value r)) i); split; intros; auto; try lia; discriminate.
  - intros H. destruct (Nat.leb_spec (FixedBitSet.len (value r)) i); [lia | reflexivity].
Qed.

Lemma reach_get_total_witness :
  (reach_get {| value := [true; false] |} 2 = None <-> 2 <= 2) /\
  reach_get {| value := [true; false] |} 0 = Some true.
Proof.
  split.
  - apply (reach_get_total {| value := [true; false] |} 2).
  - apply (proj2 (reach_get_total {| value := [true; false] |} 0)). simpl. lia.
Defined.

(** ** Literal arithmetic *)

Lemma wrap_i64_spec (z : Z) :
  in_i64 (wrap_i64 z) = true /\ (wrap_i64 z mod 2 ^ 64 = z mod 2 ^ 64)%Z.
Proof.
  unfold wrap_i64, in_i64, i64_min, i64_max.
  pose proof (Z.mod_pos_bound (z + 2 ^ 63) (2 ^ 64) ltac:(lia)) as Hb.
  split.
  - apply andb_true_intro. split; [apply Z.leb_le | apply Z.leb_le]; lia.
  - rewrite (Z.mod_eq (z + 2 ^ 63) (2 ^ 64)) by lia.
    replace (z + 2 ^ 63 - 2 ^ 64 * ((z + 2 ^ 63) / 2 ^ 64) - 2 ^ 63)%Z
      with (z + (- ((z + 2 ^ 63) / 2 ^ 64)) * 2 ^ 64)%Z by ring.
    apply Z.mod_add. lia.
Qed.

(** C9, as stated, fails: [i64::MAX + 1] is not returned as the exact sum
    (it panics with overflow checks and wraps without them). *)
Lemma int_add_overflow_counterexample :
  IntValue_binary true {| int_value := i64_max |} Add (Some {| int_value := 1 |})
    <> Ok {| int_value := (i64_max + 1)%Z |} /\
  IntValue_binary false {| int_value := i64_max |} Add (Some {| int_value := 1 |})
    <> Ok {| int_value := (i64_max + 1)%Z |}.
Proof.
  split; vm_compute; intros H; inversion H.
Qed.

(** C9 (amended): [binary] with [Add] and [Some other] returns the exact
    sum whenever it fits in [i64]; an out-of-range sum panics with overflow
    checks and, without them, wraps to the [i64] congruent to it modulo
    [2^64] (which is not the sum); [Sub], [Mul], [Div], [And], [Or], [Xor],
    every [unary] and every [static_cmp] panic. *)
Theorem int_literal_arith (overflow_checks : bool) (a b : IntValue) :
  (in_i64 (int_value a + int_value b)%Z = true ->
   IntValue_binary overflow_checks a Add (Some b)
     = Ok {| int_value := (int_value a + int_value b)%Z |}) /\
  (in_i64 (int_value a + int_value b)%Z = false ->
   IntValue_binary true a Add (Some b) = Panic AddOverflow /\
   exists r, IntValue_binary false a Add (Some b) = Ok r /\
     in_i64 (int_value r) = true /\
     (int_value r mod 2 ^ 64 = (int_value a + int_value b) mod 2 ^ 64)%Z /\
     int_value r <> (int_value a + int_value b)%Z) /\
  (forall op o, In op [Sub; Mul; Div; And; Or; Xor] ->
     IntValue_binary overflow_checks a op o = Panic Todo) /\
  (forall op o, IntValue_unary a op o = Panic Todo) /\
  (forall c o, IntValue_static_cmp a c o = Panic Todo).
Proof.
  split; [| split; [| split; [| split]]].
  - intros Hin. unfold IntValue_binary, i64_add. rewrite Hin. reflexivity.
  - intros Hout. unfold IntValue_binary, i64_add. rewrite Hout. split; [reflexivity |].
    destruct (wrap_i64_spec (int_value a + int_value b)) as [Hr Hm].
    eexists. split; [reflexivity |]. simpl. split; [exact Hr |]. split; [exact Hm |].
    intros Heq. rewrite Heq in Hr. congruence.
  - intros op o Hop. simpl in Hop.
    destruct Hop as [<- | [<- | [<- | [<- | [<- | [<- | []]]]]]]; reflexivity.
  - reflexivity.
  - reflexivity.
Qed.

Lemma int_literal_arith_witness :
  IntValue_binary true {| int_value := 2 |} Add (Some {| int_value := 40 |})
    = Ok {| int_value := 42 |} /\
  IntValue_binary true {| int_value := i64_max |} Add (Some {| int_value := 1 |})
    = Panic AddOverflow.
Proof.
  split.
  - apply (proj1 (int_literal_arith true {| int_value := 2 |} {| int_value := 40 |})).
    vm_compute. reflexivity.
  - apply (proj1 (proj2 (int_literal_arith true {| int_value := i64_max |}
                                         {| int_value := 1 |}))).
    vm_compute. reflexivity.
Defined.

(** ** Program / Function ownership *)

(** C4: the Function stores a strong handle to its Program, so after one
    [lookup_or_insert_function] the Program outlives the caller's last
    handle (it is never freed), while without a Function it is freed. *)
Theorem function_keeps_program_alive :
  RcHeap.alive
    (RcHeap.drop_program_root (RcHeap.lookup_or_insert_function RcHeap.program_new "main"))
    (RcHeap.program RcHeap.program_new) = true /\
  RcHeap.alive (RcHeap.drop_program_root RcHeap.program_new)
    (RcHeap.program RcHeap.program_new) = false.
Proof. split; vm_compute; reflexivity. Qed.

(** ** Aggregate decomposition *)

Section DataTypeInd.
Variable P : DataType -> Prop.
Hypothesis H_I64 : P I64.
Hypothesis H_F64 : P F64.
Hypothesis H_Bool : P TBool.
Hypothesis H_Array : forall t n, P t -> P (Array t n).
Hypothesis H_Struct : forall ts, Forall P ts -> P (Struct ts).
Hypothesis H_Void : P Void.

Fixpoint DataType_ind' (t : DataType) : P t :=
  match t with
  | I64 => H_I64
  | F64 => H_F64
  | TBool => H_Bool
  | Array e n => H_Array e n (DataType_ind' e)
  | Struct ts =>
      H_Struct ts
        ((fix go (l : list DataType) : Forall P l :=
            match l with
            | [] => Forall_nil P
            | x :: r => Forall_cons x (DataType_ind' x) (go r)
            end) ts)
  | Void => H_Void
  end.
End DataTypeInd.

(** [p'] is [p] with more spaces appended. *)
Definition extends (p p' : Pool) : Prop :=
  origin p' = origin p /\ exists rest, arena p' = arena p ++ rest.

(** Logical id [m] names a Space of type [t] in [p]. *)
Definition typed (p : Pool) (m : SpaceNameId) (t : DataType) : Prop :=
  exists sid s, pool_get_id p m = Some sid /\ pool_get p sid = Some s /\
                get_type (signature s) = Some t.

(** What one [declare_space] call establishes. *)
Definition decl_post (ty : option DataType) (sc : Scope) (p : Pool)
  (r : (SpaceNameId * nat) * Pool) : Prop :=
  extends p (snd r) /\
  List.length (arena p) <= snd (fst r) /\
  S (snd (fst r)) = List.length (arena (snd r)) /\
  fst (fst r) = origin p + snd (fst r) /\
  exists ms, pool_get (snd r) (snd (fst r))
             = Some {| signature := Normal ty ms; scope := sc; space_value := FTop |}.

Lemma extends_refl (p : Pool) : extends p p.
Proof. split; [reflexivity | exists []; symmetry; apply app_nil_r]. Qed.

Lemma extends_trans (p1 p2 p3 : Pool) : extends p1 p2 -> extends p2 p3 -> extends p1 p3.
Proof.
  intros [H1 [r1 E1]] [H2 [r2 E2]]. split; [congruence |].
  exists (r1 ++ r2). rewrite E2, E1, app_assoc. reflexivity.
Qed.

Lemma extends_length (p p' : Pool) :
  extends p p' -> List.length (arena p) <= List.length (arena p').
Proof. intros [_ [r E]]. rewrite E, length_app. lia. Qed.

Lemma pool_get_extends (p p' : Pool) (sid : nat) (s : Space) :
  extends p p' -> pool_get p sid = Some s -> pool_get p' sid = Some s.
Proof.
  intros [_ [r E]] H. unfold pool_get in *. rewrite E.
  rewrite nth_error_app1; [exact H |]. apply nth_error_Some. congruence.
Qed.

Lemma pool_get_id_extends (p p' : Pool) (m sid : nat) :
  extends p p' -> pool_get_id p m = Some sid -> pool_get_id p' m = Some sid.
Proof.
  intros Hx H. pose proof (extends_length _ _ Hx) as Hl. destruct Hx as [Ho _].
  unfold pool_get_id in *. rewrite Ho.
  destruct (origin p <=? m) eqn:E1, (m <? origin p + List.length (arena p)) eqn:E2;
    simpl in H; try discriminate.
  apply Nat.ltb_lt in E2. replace (m <? origin p + List.length (arena p')) with true
    by (symmetry; apply Nat.ltb_lt; lia). exact H.
Qed.

Lemma typed_extends (p p' : Pool) (m : SpaceNameId) (t : DataType) :
  extends p p' -> typed p m t -> typed p' m t.
Proof.
  intros Hx (sid & s & H1 & H2 & H3). exists sid, s.
  split; [eapply pool_get_id_extends; eauto |]. split; [eapply pool_get_extends; eauto | exact H3].
Qed.

Lemma decl_post_typed (t : DataType) (sc : Scope) (p : Pool) r :
  decl_post (Some t) sc p r -> typed (snd r) (fst (fst r)) t.
Proof.
  intros ([Ho _] & Hle & Hlen & Hnid & ms & Hget).
  exists (snd (fst r)), {| signature := Normal (Some t) ms; scope := sc; space_value := FTop |}.
  split; [| split; [exact Hget | reflexivity]].
  unfold pool_get_id. rewrite Ho, Hnid.
  replace (origin p <=? origin p + snd (fst r)) with true by (symmetry; apply Nat.leb_le; lia).
  replace (origin p + snd (fst r) <? origin p + List.length (arena (snd r))) with true
    by (symmetry; apply Nat.ltb_lt; lia).
  simpl. f_equal. lia.
Qed.

Lemma pool_insert_post (ty : option DataType) (sc : Scope) (p p1 : Pool) ms :
  extends p p1 ->
  decl_post ty sc p (pool_insert p1 {| signature := Normal ty ms; scope := sc;
                                       space_value := FTop |}).
Proof.
  intros Hx. pose proof (extends_length _ _ Hx) as Hl. destruct Hx as [Ho [r E]].
  unfold pool_insert, decl_post. simpl. split; [| split; [lia | split; [| split]]].
  - split; [simpl; exact Ho |]. exists (r ++ [{| signature := Normal ty ms; scope := sc;
                                                 space_value := FTop |}]).
    simpl. rewrite E, app_assoc. reflexivity.
  - rewrite length_app. simpl. lia.
  - rewrite Ho. reflexivity.
  - exists ms. unfold pool_get. simpl. rewrite nth_error_app2 by lia.
    rewrite Nat.sub_diag. reflexivity.
Qed.

Lemma decl_repeat_as_members (f : Pool -> (SpaceNameId * nat) * Pool) (x : DataType) (n : nat) (p : Pool) :
  decl_repeat f n p = decl_members (fun _ => f) (repeat x n) p.
Proof.
  revert p. induction n as [| n IH]; intros p; simpl; [reflexivity |].
  destruct (f p) as [r p1]. rewrite IH. reflexivity.
Qed.

Lemma decl_members_spec (f : DataType -> Pool -> (SpaceNameId * nat) * Pool) (sc : Scope)
  (ts : list DataType) :
  Forall (fun t => forall p, decl_post (Some t) sc p (f t p)) ts ->
  forall p ms p', decl_members f ts p = (ms, p') ->
  extends p p' /\ Forall2 (typed p') ms ts /\
  Forall (fun m => origin p + List.length (arena p) <= m < origin p + List.length (arena p')) ms /\
  StronglySorted lt ms.
Proof.
  induction 1 as [| t ts Ht Hts IH]; intros p ms p' E; simpl in E.
  - inversion E; subst. split; [apply extends_refl |].
    split; [constructor |]. split; constructor.
  - destruct (f t p) as [r p1] eqn:Ef. destruct (decl_members f ts p1) as [ms0 p2] eqn:Er.
    inversion E; subst ms p2. clear E.
    pose proof (Ht p) as Hp. rewrite Ef in Hp.
    pose proof (decl_post_typed _ _ _ _ Hp) as Hty.
    destruct Hp as (Hx1 & Hle & Hlen & Hnid & _). simpl in *.
    destruct (IH p1 ms0 p' Er) as (Hx2 & Hall & Hrange & Hsort).
    pose proof (extends_length _ _ Hx2) as Hl2.
    split; [eapply extends_trans; eauto |]. destruct Hx1 as [Ho1 _].
    split; [| split].
    + constructor; [eapply typed_extends; eauto | exact Hall].
    + constructor; [lia |].
      eapply Forall_impl; [| exact Hrange]. simpl. intros m Hm. rewrite Ho1 in Hm. lia.
    + constructor; [exact Hsort |].
      eapply Forall_impl; [| exact Hrange]. simpl. intros m Hm. rewrite Ho1 in Hm. lia.
Qed.

Lemma decl_ty_post (t : DataType) :
  forall sc p, decl_post (Some t) sc p (decl_ty t sc p).
Proof.
  induction t as [| | | e n IH | ts IH |] using DataType_ind'; intros sc p;
    try (apply pool_insert_post, extends_refl).
  - cbn [decl_ty]. destruct (decl_repeat (decl_ty e sc) n p) as [ms p1] eqn:E.
    rewrite (decl_repeat_as_members _ e) in E.
    apply decl_members_spec with (sc := sc) in E.
    + apply pool_insert_post. exact (proj1 E).
    + apply Forall_forall. intros x Hx. apply repeat_spec in Hx. subst x. apply IH.
  - cbn [decl_ty]. destruct (decl_members (fun dt => decl_ty dt sc) ts p) as [ms p1] eqn:E.
    apply decl_members_spec with (sc := sc) in E.
    + apply pool_insert_post. exact (proj1 E).
    + eapply Forall_impl; [| exact IH]. simpl. intros x Hx. apply Hx.
Qed.

Lemma Forall2_repeat {A B} (R : A -> B -> Prop) (ms : list A) (x : B) (n : nat) :
  Forall2 R ms (repeat x n) -> Forall (fun m => R m x) ms /\ List.length ms = n.
Proof.
  revert ms. induction n as [| n IH]; intros ms H; inversion H; subst.
  - split; constructor.
  - destruct (IH _ H4) as [H1 H2]. split; [constructor; assumption | simpl; lia].
Qed.

Lemma Forall_conj {A} (P Q : A -> Prop) (l : list A) :
  Forall P l -> Forall Q l -> Forall (fun x => P x /\ Q x) l.
Proof. induction 1; intros HQ; inversion HQ; subst; constructor; auto. Qed.

Lemma Forall2_impl {A B} (R S : A -> B -> Prop) (l1 : list A) (l2 : list B) :
  (forall a b, R a b -> S a b) -> Forall2 R l1 l2 -> Forall2 S l1 l2.
Proof. intros H. induction 1; constructor; auto. Qed.

Lemma extends_insert (p : Pool) (s : Space) :
  extends p {| origin := origin p; arena := arena p ++ [s] |}.
Proof. split; [reflexivity | eexists; reflexivity]. Qed.

Lemma pool_insert_top (p : Pool) (s : Space) :
  pool_get {| origin := origin p; arena := arena p ++ [s] |} (List.length (arena p)) = Some s.
Proof. unfold pool_get. simpl. rewrite nth_error_app2, Nat.sub_diag by lia. reflexivity. Qed.

Definition sample_pool : Pool := {| origin := 1; arena := [] |}.

Example declare_array_sample :
  fst (declare_space (Some (Array I64 2)) Global sample_pool) = (3, 2) /\
  pool_get (snd (declare_space (Some (Array I64 2)) Global sample_pool)) 2
    = Some {| signature := Normal (Some (Array I64 2)) [1; 2]; scope := Global;
              space_value := FTop |}.
Proof. split; reflexivity. Qed.

(** C7: [declare_space] (the shared body of [Function::declare_space] and
    [Program::declare_space]) on [Array t n] declares exactly [n] fresh
    members of type [t] before the aggregate and lists their ids in
    increasing order; on [Struct [t1..tk]] it declares exactly [k] fresh
    members, the [i]-th of type [ti], in order; on [None] it declares one
    Space of unknown type with no members. *)
Theorem declare_space_members (sc : Scope) (p : Pool) :
  (forall t n nid sid p',
     declare_space (Some (Array t n)) sc p = ((nid, sid), p') ->
     exists ms,
       pool_get p' sid = Some {| signature := Normal (Some (Array t n)) ms; scope := sc;
                                 space_value := FTop |} /\
       List.length ms = n /\
       Forall (fun m => typed p' m t /\ origin p + List.length (arena p) <= m < nid) ms /\
       StronglySorted lt ms) /\
  (forall ts nid sid p',
     declare_space (Some (Struct ts)) sc p = ((nid, sid), p') ->
     exists ms,
       pool_get p' sid = Some {| signature := Normal (Some (Struct ts)) ms; scope := sc;
                                 space_value := FTop |} /\
       Forall2 (typed p') ms ts /\
       Forall (fun m => origin p + List.length (arena p) <= m < nid) ms /\
       StronglySorted lt ms) /\
  declare_space None sc p =
    ((origin p + List.length (arena p), List.length (arena p)),
     {| origin := origin p;
        arena := arena p ++ [{| signature := Normal None []; scope := sc;
                               space_value := FTop |}] |}).
Proof.
  split; [| split; [| reflexivity]].
  - intros t n nid sid p' E. simpl in E.
    destruct (decl_repeat (decl_ty t sc) n p) as [ms p1] eqn:Er.
    rewrite (decl_repeat_as_members _ t) in Er.
    apply decl_members_spec with (sc := sc) in Er.
    2:{ apply Forall_forall. intros x Hx. apply repeat_spec in Hx. subst x. apply decl_ty_post. }
    destruct Er as ([Ho _] & Hall & Hrange & Hsort).
    apply Forall2_repeat in Hall. destruct Hall as [Hall Hn].
    unfold pool_insert in E. inversion E; subst nid sid p'. clear E.
    exists ms. split; [| split; [exact Hn | split; [| exact Hsort]]].
    + apply pool_insert_top.
    + apply Forall_conj.
      * eapply Forall_impl; [| exact Hall]. intros m Hm. eapply typed_extends; [| exact Hm].
        apply extends_insert.
      * eapply Forall_impl; [| exact Hrange]. simpl. intros m Hm. rewrite Ho. lia.
  - intros ts nid sid p' E. simpl in E.
    destruct (decl_members (fun dt => decl_ty dt sc) ts p) as [ms p1] eqn:Er.
    apply decl_members_spec with (sc := sc) in Er.
    2:{ apply Forall_forall. intros x _. apply decl_ty_post. }
    destruct Er as ([Ho _] & Hall & Hrange & Hsort).
    unfold pool_insert in E. inversion E; subst nid sid p'. clear E.
    exists ms. split; [| split; [| split; [| exact Hsort]]].
    + apply pool_insert_top.
    + eapply Forall2_impl; [| exact Hall]. intros m x Hm. eapply typed_extends; [| exact Hm].
      apply extends_insert.
    + eapply Forall_impl; [| exact Hrange]. simpl. intros m Hm. rewrite Ho. lia.
Qed.

Definition sample_array_pool : Pool := snd (declare_space (Some (Array I64 2)) Global sample_pool).

Lemma declare_space_members_witness :
  exists ms,
    pool_get sample_array_pool 2
      = Some {| signature := Normal (Some (Array I64 2)) ms; scope := Global;
                space_value := FTop |} /\
    List.length ms = 2 /\
    Forall (fun m => typed sample_array_pool m I64 /\ 1 + 0 <= m < 3) ms /\
    StronglySorted lt ms.
Proof.
  apply (proj1 (declare_space_members Global sample_pool) I64 2 3 2 sample_array_pool).
  reflexivity.
Defined.

(** ** Name resolution *)

Lemma decl_post_get_id (ty : option DataType) (sc : Scope) (p : Pool) r :
  decl_post ty sc p r -> pool_get_id (snd r) (fst (fst r)) = Some (snd (fst r)).
Proof.
  intros ([Ho _] & Hle & Hlen & Hnid & _).
  unfold pool_get_id. rewrite Ho, Hnid.
  replace (origin p <=? origin p + snd (fst r)) with true by (symmetry; apply Nat.leb_le; lia).
  replace (origin p + snd (fst r) <? origin p + List.length (arena (snd r))) with true
    by (symmetry; apply Nat.ltb_lt; lia).
  simpl. f_equal. lia.
Qed.

Lemma declare_space_post (ty : option DataType) (sc : Scope) (p : Pool) :
  decl_post ty sc p (declare_space ty sc p).
Proof.
  destruct ty as [t |]; [apply decl_ty_post | apply pool_insert_post, extends_refl].
Qed.

Definition sample_program : Program :=
  {| space_pool := {| origin := 1; arena :=
       [{| signature := Normal (Some I64) []; scope := Global; space_value := FTop |}] |};
     globals := [("x"%string, 1)];
     constants := [] |}.

Definition sample_function : Function := {| fn_name_id := 1; locals := [] |}.

Example lookup_global_sample :
  lookup_or_insert_space sample_function sample_program "x" = Ok ((1, 0), sample_program, sample_function).
Proof. reflexivity. Qed.

(** C5: [Function::lookup_or_insert_space] resolves a name to the local
    binding if there is one, else to the global binding of the Program,
    else declares a new local Space of unknown type; once a local is
    declared it shadows a global of the same name. *)
Theorem lookup_or_insert_space_precedence (F : Function) (P : Program) (name : string) :
  (forall nid sid,
     get_name_id String.eqb (locals F) name = Some nid ->
     lookup_space P nid = Some sid ->
     lookup_or_insert_space F P name = Ok ((nid, sid), P, F)) /\
  (forall g,
     get_name_id String.eqb (locals F) name = None ->
     lookup_global_by_name P name = Some g ->
     lookup_or_insert_space F P name = Ok (g, P, F)) /\
  (get_name_id String.eqb (locals F) name = None ->
   lookup_global_by_name P name = None ->
   lookup_or_insert_space F P name =
     Ok ((origin (space_pool P) + List.length (arena (space_pool P)),
          List.length (arena (space_pool P))),
         set_pool P {| origin := origin (space_pool P);
                       arena := arena (space_pool P) ++
                                [{| signature := Normal None []; scope := Local (fn_name_id F);
                                    space_value := FTop |}] |},
         {| fn_name_id := fn_name_id F;
            locals := (name, origin (space_pool P) + List.length (arena (space_pool P)))
                      :: locals F |})) /\
  (forall dt nid sid P' F',
     declare_local F P name dt = ((nid, sid), P', F') ->
     lookup_or_insert_space F' P' name = Ok ((nid, sid), P', F')).
Proof.
  split; [| split; [| split]].
  - intros nid sid H1 H2. unfold lookup_or_insert_space. rewrite H1, H2. reflexivity.
  - intros g H1 H2. unfold lookup_or_insert_space. rewrite H1, H2. reflexivity.
  - intros H1 H2. unfold lookup_or_insert_space. rewrite H1, H2. reflexivity.
  - intros dt nid sid P' F' E. unfold declare_local, Function_declare_space in E.
    pose proof (declare_space_post dt (Local (fn_name_id F)) (space_pool P)) as Hp.
    apply decl_post_get_id in Hp.
    destruct (declare_space dt (Local (fn_name_id F)) (space_pool P)) as [[n s] p'].
    inversion E; subst. clear E. simpl in Hp.
    unfold lookup_or_insert_space, lookup_space. simpl. rewrite String.eqb_refl.
    rewrite Hp. reflexivity.
Qed.

Lemma lookup_or_insert_space_precedence_witness :
  lookup_or_insert_space sample_function sample_program "x"
    = Ok ((1, 0), sample_program, sample_function) /\
  lookup_or_insert_space {| fn_name_id := 1; locals := [("x"%string, 2)] |}
    (set_pool sample_program {| origin := 1; arena := arena (space_pool sample_program) ++
       [{| signature := Normal None []; scope := Local 1; space_value := FTop |}] |}) "x"
    = Ok ((2, 1), set_pool sample_program {| origin := 1; arena := arena (space_pool sample_program) ++
       [{| signature := Normal None []; scope := Local 1; space_value := FTop |}] |},
          {| fn_name_id := 1; locals := [("x"%string, 2)] |}).
Proof.
  split.
  - apply (proj1 (proj2 (lookup_or_insert_space_precedence sample_function sample_program "x"))
             (1, 0)); reflexivity.
  - apply (proj2 (proj2 (proj2 (lookup_or_insert_space_precedence sample_function sample_program "x")))
             None 2 1).
    reflexivity.
Defined.

(** ** Constant deduplication *)

(** The [constants] map binds each value to a distinct id of the pool whose
    Space carries [Value(v)]. *)
Definition constants_wf (P : Program) : Prop :=
  NoDup (map snd (constants P)) /\
  Forall (fun e => exists sid s, pool_get_id (space_pool P) (snd e) = Some sid /\
                                 pool_get (space_pool P) sid = Some s /\
                                 space_value s = FValue (fst e)) (constants P).

Lemma Value_eqb_spec (a b : Value) : Value_eqb a b = true <-> a = b.
Proof. unfold Value_eqb. destruct (Value_eq_dec a b); split; congruence. Qed.

Lemma get_name_id_in {K} (eqb : K -> K -> bool) (m : NameMap K) (k : K) (n : nat) :
  get_name_id eqb m k = Some n -> In n (map snd m).
Proof.
  induction m as [| [k' x] m IH]; simpl; [discriminate |].
  destruct (eqb k k'); [intros H; inversion H; left; reflexivity | intros H; right; auto].
Qed.

Lemma get_name_id_injective (m : NameMap Value) (a b : Value) (n : nat) :
  NoDup (map snd m) ->
  get_name_id Value_eqb m a = Some n -> get_name_id Value_eqb m b = Some n -> a = b.
Proof.
  induction m as [| [k x] m IH]; simpl; [discriminate |].
  intros Hnd. inversion Hnd as [| ? ? Hnot Hnd']; subst.
  destruct (Value_eqb a k) eqn:Ea, (Value_eqb b k) eqn:Eb; intros Ha Hb.
  - apply Value_eqb_spec in Ea, Eb. congruence.
  - inversion Ha; subst. apply get_name_id_in in Hb. contradiction.
  - inversion Hb; subst. apply get_name_id_in in Ha. contradiction.
  - eauto.
Qed.

Lemma pool_get_id_bound (p : Pool) (m sid : nat) :
  pool_get_id p m = Some sid -> m < origin p + List.length (arena p).
Proof.
  unfold pool_get_id. destruct (origin p <=? m), (m <? origin p + List.length (arena p)) eqn:E;
    simpl; try discriminate. intros _. apply Nat.ltb_lt. exact E.
Qed.

Lemma lookup_or_insert_constant_ok (P : Program) (dt : DataType) (v : Value) :
  constants_wf P ->
  exists nid sid P',
    lookup_or_insert_constant P dt v = Ok ((nid, sid), P') /\
    constants_wf P' /\
    extends (space_pool P) (space_pool P') /\
    get_name_id Value_eqb (constants P') v = Some nid /\
    pool_get_id (space_pool P') nid = Some sid /\
    (exists s, pool_get (space_pool P') sid = Some s /\ space_value s = FValue v) /\
    (forall v' n, get_name_id Value_eqb (constants P) v' = Some n ->
                  get_name_id Value_eqb (constants P') v' = Some n).
Proof.
  intros [Hnd Hall]. unfold lookup_or_insert_constant, get_id_or_insert.
  destruct (get_name_id Value_eqb (constants P) v) as [n |] eqn:Hv.
  - (* already bound *)
    assert (Hin : exists sid s, pool_get_id (space_pool P) n = Some sid /\
                                pool_get (space_pool P) sid = Some s /\ space_value s = FValue v).
    { clear Hnd. induction (constants P) as [| [k x] m IH]; simpl in Hv; [discriminate |].
      inversion Hall; subst. destruct (Value_eqb v k) eqn:E.
      - inversion Hv; subst. apply Value_eqb_spec in E. subst. assumption.
      - apply IH; assumption. }
    destruct Hin as (sid & s & H1 & H2 & H3). rewrite H1.
    exists n, sid, {| space_pool := space_pool P; globals := globals P; constants := constants P |}.
    split; [reflexivity |]. split; [split; assumption |].
    split; [apply extends_refl |]. split; [exact Hv |]. split; [exact H1 |].
    split; [exists s; split; assumption |]. auto.
  - (* fresh *)
    set (p := space_pool P). set (nid := origin p + List.length (arena p)).
    set (sp := constant_ctor dt v nid (List.length (arena p))).
    exists nid, (List.length (arena p)),
      {| space_pool := {| origin := origin p; arena := arena p ++ [sp] |};
         globals := globals P; constants := bind (constants P) v nid |}.
    split; [reflexivity |].
    assert (Hx : extends p {| origin := origin p; arena := arena p ++ [sp] |}) by apply extends_insert.
    assert (Hid : pool_get_id {| origin := origin p; arena := arena p ++ [sp] |} nid
                  = Some (List.length (arena p))).
    { unfold pool_get_id, nid. simpl. rewrite length_app. simpl.
      replace (origin p <=? origin p + List.length (arena p)) with true by (symmetry; apply Nat.leb_le; lia).
      replace (origin p + List.length (arena p) <? origin p + (List.length (arena p) + 1)) with true
        by (symmetry; apply Nat.ltb_lt; lia).
      simpl. f_equal. lia. }
    split; [split |].
    + simpl. constructor; [| exact Hnd].
      intros Hin. apply in_map_iff in Hin. destruct Hin as [[k x] [Hx' Hk]]. simpl in Hx'. subst x.
      eapply Forall_forall in Hall; [| exact Hk]. destruct Hall as (sid & s & H1 & _).
      apply pool_get_id_bound in H1. unfold nid, p in *. simpl in *. lia.
    + simpl. constructor.
      * exists (List.length (arena p)), sp. split; [exact Hid |]. split; [apply pool_insert_top |].
        reflexivity.
      * eapply Forall_impl; [| exact Hall]. intros [k x] (sid & s & H1 & H2 & H3).
        exists sid, s. split; [eapply pool_get_id_extends; eauto |].
        split; [eapply pool_get_extends; eauto | exact H3].
    + split; [exact Hx |]. simpl. rewrite (proj2 (Value_eqb_spec v v) eq_refl).
      split; [reflexivity |]. split; [exact Hid |].
      split; [exists sp; split; [apply pool_insert_top | reflexivity] |].
      intros v' n Hv'. destruct (Value_eqb v' v) eqn:E; [| exact Hv'].
      apply Value_eqb_spec in E. subst. congruence.
Qed.

Example constant_dedup_sample :
  match lookup_or_insert_constant sample_program I64 (VInt {| int_value := 7 |}) with
  | Ok (r1, P1) =>
      match lookup_or_insert_constant P1 I64 (VInt {| int_value := 7 |}) with
      | Ok (r2, _) => fst r1 = 2 /\ fst r2 = 2
      | Panic _ => False
      end
  | Panic _ => False
  end.
Proof. vm_compute. split; reflexivity. Qed.

(** C6: two successive [lookup_or_insert_constant] calls return the same
    logical id exactly when the values are equal, and the Space of each
    carries [Value(v)]. *)
Theorem lookup_or_insert_constant_dedup (P : Program) (dt1 dt2 : DataType) (v1 v2 : Value) :
  constants_wf P ->
  match lookup_or_insert_constant P dt1 v1 with
  | Ok ((n1, s1), P1) =>
      match lookup_or_insert_constant P1 dt2 v2 with
      | Ok ((n2, s2), P2) =>
          (n1 = n2 <-> v1 = v2) /\
          (exists s, pool_get (space_pool P2) s1 = Some s /\ space_value s = FValue v1) /\
          (exists s, pool_get (space_pool P2) s2 = Some s /\ space_value s = FValue v2)
      | Panic _ => False
      end
  | Panic _ => False
  end.
Proof.
  intros Hwf.
  destruct (lookup_or_insert_constant_ok P dt1 v1 Hwf)
    as (n1 & s1 & P1 & E1 & Hwf1 & Hx1 & Hn1 & Hid1 & Hs1 & Hkeep1).
  rewrite E1.
  destruct (lookup_or_insert_constant_ok P1 dt2 v2 Hwf1)
    as (n2 & s2 & P2 & E2 & Hwf2 & Hx2 & Hn2 & Hid2 & Hs2 & Hkeep2).
  rewrite E2.
  split; [| split].
  - split.
    + intros <-. apply (get_name_id_injective (constants P2) v1 v2 n1); [apply Hwf2 | | exact Hn2].
      apply Hkeep2. exact Hn1.
    + intros <-. rewrite (Hkeep2 v1 n1 Hn1) in Hn2. congruence.
  - destruct Hs1 as (s & H1 & H2). exists s. split; [eapply pool_get_extends; eauto | exact H2].
  - exact Hs2.
Qed.

Lemma lookup_or_insert_constant_dedup_witness :
  constants_wf sample_program /\
  match lookup_or_insert_constant sample_program I64 (VInt {| int_value := 7 |}) with
  | Ok ((n1, s1), P1) =>
      match lookup_or_insert_constant P1 I64 (VInt {| int_value := 8 |}) with
      | Ok ((n2, s2), P2) =>
          (n1 = n2 <-> VInt {| int_value := 7 |} = VInt {| int_value := 8 |}) /\
          (exists s, pool_get (space_pool P2) s1 = Some s /\
                     space_value s = FValue (VInt {| int_value := 7 |})) /\
          (exists s, pool_get (space_pool P2) s2 = Some s /\
                     space_value s = FValue (VInt {| int_value := 8 |}))
      | Panic _ => False
      end
  | Panic _ => False
  end.
Proof.
  split; [split; constructor |].
  apply (lookup_or_insert_constant_dedup sample_program I64 I64
           (VInt {| int_value := 7 |}) (VInt {| int_value := 8 |})).
  split; constructor.
Defined.

(** * Further properties of the code *)

(** ** Bit-vector facts *)

Lemma bit_map_seq (f : nat -> bool) (n i : nat) :
  FixedBitSet.bit (map f (seq 0 n)) i = if i <? n then f i else false.
Proof.
  unfold FixedBitSet.bit. destruct (Nat.ltb_spec i n).
  - rewrite nth_indep with (d' := f 0) by (rewrite length_map, length_seq; lia).
    rewrite map_nth, seq_nth by lia. reflexivity.
  - apply nth_overflow. rewrite length_map, length_seq. lia.
Qed.

Lemma bit_overflow (s : FixedBitSet.t) (i : nat) :
  List.length s <= i -> FixedBitSet.bit s i = false.
Proof. intros H. unfold FixedBitSet.bit. apply nth_overflow. exact H. Qed.

Lemma bits_ext (a b : FixedBitSet.t) :
  List.length a = List.length b -> (forall i, FixedBitSet.bit a i = FixedBitSet.bit b i) -> a = b.
Proof.
  intros Hl Hb. apply nth_ext with (d := false) (d' := false); [exact Hl |].
  intros n _. apply Hb.
Qed.

Lemma union_with_length (a b : FixedBitSet.t) :
  List.length (FixedBitSet.union_with a b) = Nat.max (List.length a) (List.length b).
Proof. unfold FixedBitSet.union_with. now rewrite length_map, length_seq. Qed.

Lemma bit_union_with (a b : FixedBitSet.t) (i : nat) :
  FixedBitSet.bit (FixedBitSet.union_with a b) i = FixedBitSet.bit a i || FixedBitSet.bit b i.
Proof.
  unfold FixedBitSet.union_with. rewrite bit_map_seq. unfold FixedBitSet.len.
  destruct (Nat.ltb_spec i (Nat.max (List.length a) (List.length b))); [reflexivity |].
  rewrite !bit_overflow by lia. reflexivity.
Qed.

Lemma bit_intersect_with (a b : FixedBitSet.t) (i : nat) :
  FixedBitSet.bit (FixedBitSet.intersect_with a b) i = FixedBitSet.bit a i && FixedBitSet.bit b i.
Proof.
  unfold FixedBitSet.intersect_with. rewrite bit_map_seq. unfold FixedBitSet.len.
  destruct (Nat.ltb_spec i (List.length a)); [reflexivity |].
  rewrite bit_overflow by lia. reflexivity.
Qed.

Lemma bit_set (s : FixedBitSet.t) (d i : nat) (v : bool) :
  d < List.length s -> FixedBitSet.bit (FixedBitSet.set s d v) i = if i =? d then v else FixedBitSet.bit s i.
Proof.
  unfold FixedBitSet.bit. revert d i. induction s as [| b s IH]; intros d i Hd; simpl in Hd; [lia |].
  destruct d, i; simpl; auto. apply IH. lia.
Qed.

Lemma set_length (s : FixedBitSet.t) (d : nat) (v : bool) :
  List.length (FixedBitSet.set s d v) = List.length s.
Proof. revert d. induction s; intros [| d]; simpl; auto. Qed.

(** ** Lattice laws of [ReachLattice::meet] *)

(** [ReachLattice::meet] is commutative, associative and idempotent. *)
Theorem reach_meet_semilattice (a b c : ReachLattice) :
  reach_meet a b = reach_meet b a /\
  reach_meet (reach_meet a b) c = reach_meet a (reach_meet b c) /\
  reach_meet a a = a.
Proof.
  destruct a as [a], b as [b], c as [c]. unfold reach_meet. simpl.
  split; [| split]; f_equal; apply bits_ext.
  - rewrite !union_with_length. lia.
  - intros i. rewrite !bit_union_with. apply orb_comm.
  - rewrite !union_with_length. lia.
  - intros i. rewrite !bit_union_with. symmetry. apply orb_assoc.
  - rewrite union_with_length. lia.
  - intros i. rewrite bit_union_with. apply orb_diag.
Qed.

(** [meet_with] on [ReachLattice] always leaves [self] equal to
    [meet(self, other)]; when it returns [false], [self] is unchanged and
    equal to [other], so a change is never missed. *)
Theorem reach_meet_with_sound (a b : ReachLattice) :
  fst (reach_meet_with a b) = reach_meet a b /\
  (snd (reach_meet_with a b) = false -> fst (reach_meet_with a b) = a /\ a = b).
Proof.
  split; [apply reach_meet_with_value |].
  destruct a as [a], b as [b]. unfold reach_meet_with, FixedBitSet.eqb. simpl.
  destruct (list_eq_dec bool_dec a b) as [-> |]; simpl; [auto | discriminate].
Qed.

Lemma reach_meet_with_sound_witness :
  snd (reach_meet_with {| value := [true] |} {| value := [true] |}) = false /\
  fst (reach_meet_with {| value := [true] |} {| value := [true] |}) = {| value := [true] |}.
Proof.
  split; [reflexivity |].
  apply (proj2 (reach_meet_with_sound {| value := [true] |} {| value := [true] |})).
  reflexivity.
Defined.

(** [top] (also [entry_out]) is the all-zero vector of [assignment_count]
    bits and is neutral for [meet] on facts of that size; [bottom] is the
    all-one vector and absorbs every fact no longer than it. *)
Theorem top_bottom_meet (graph : DataFlowGraph) (a : ReachLattice) :
  value (entry_out graph) = repeat false (assignment_count (weight graph)) /\
  value (bottom graph) = repeat true (assignment_count (weight graph)) /\
  (FixedBitSet.len (value a) = assignment_count (weight graph) ->
   reach_meet a (top graph) = a /\ reach_meet (top graph) a = a) /\
  (FixedBitSet.len (value a) <= assignment_count (weight graph) ->
   reach_meet a (bottom graph) = bottom graph).
Proof.
  destruct a as [a]. unfold FixedBitSet.len. simpl.
  split; [reflexivity |]. split.
  { unfold bottom, top, ReachLattice_new, FixedBitSet.toggle_all, FixedBitSet.with_capacity. simpl.
    rewrite map_repeat. reflexivity. }
  split.
  - intros Hl. unfold reach_meet, top, ReachLattice_new. simpl. rewrite <- Hl.
    split; f_equal; [apply union_with_zeros |]. apply bits_ext.
    + rewrite union_with_length. unfold FixedBitSet.with_capacity. rewrite repeat_length. lia.
    + intros i. rewrite bit_union_with. unfold FixedBitSet.with_capacity.
      rewrite bit_repeat. destruct (i <? List.length a); reflexivity.
  - intros Hl. unfold reach_meet, bottom, top, ReachLattice_new, FixedBitSet.toggle_all,
      FixedBitSet.with_capacity. simpl. rewrite map_repeat. simpl. f_equal. apply bits_ext.
    + rewrite union_with_length, repeat_length. lia.
    + intros i. rewrite bit_union_with, !bit_repeat.
      destruct (Nat.ltb_spec i (assignment_count (weight graph))); [apply orb_true_r |].
      rewrite bit_overflow by lia. reflexivity.
Qed.

Lemma top_bottom_meet_witness :
  reach_meet {| value := [true; false; true] |} (top straight_graph) = {| value := [true; false; true] |} /\
  reach_meet {| value := [true; false] |} (bottom straight_graph) = bottom straight_graph.
Proof.
  split.
  - apply (proj1 (proj1 (proj2 (proj2 (top_bottom_meet straight_graph {| value := [true; false; true] |})))
                        eq_refl)).
  - apply (proj2 (proj2 (proj2 (top_bottom_meet straight_graph {| value := [true; false] |})))).
    simpl. lia.
Defined.

(** ** gen_var and transfer_forward *)

(** [gen_var] of an assignment with declaration number [d] below
    [assignment_count] is the vector of [assignment_count] bits with only
    bit [d] set; a number at or past [assignment_count] makes it panic
    (the bounds assert of [FixedBitSet::set]); jumps, commands and
    assignments without a number give the all-zero vector. *)
Theorem gen_var_single_bit (dest : SpaceNameId) (op : Operation) (w : CodeBlockGraphWeight) :
  (forall d, d < assignment_count w ->
     exists g, gen_var (Assignment dest op {| declaration_number := Some d |}) w = Ok g /\
       FixedBitSet.len (value g) = assignment_count w /\
       forall i, FixedBitSet.bit (value g) i = (i =? d)) /\
  (forall d, assignment_count w <= d ->
     gen_var (Assignment dest op {| declaration_number := Some d |}) w = Panic IndexOutOfBounds) /\
  gen_var (Assignment dest op {| declaration_number := None |}) w
    = Ok (ReachLattice_new (assignment_count w)) /\
  (forall j inf, gen_var (Jump j inf) w = Ok (ReachLattice_new (assignment_count w))) /\
  (forall c inf, gen_var (Command c inf) w = Ok (ReachLattice_new (assignment_count w))).
Proof.
  split; [| split; [| split; [reflexivity | split; reflexivity]]].
  - intros d Hd. unfold gen_var, FixedBitSet.set_checked. simpl.
    unfold FixedBitSet.len, FixedBitSet.with_capacity. rewrite repeat_length.
    replace (d <? assignment_count w) with true by (symmetry; apply Nat.ltb_lt; exact Hd).
    eexists. split; [reflexivity |]. simpl. split.
    + unfold FixedBitSet.len. rewrite set_length, repeat_length. reflexivity.
    + intros i. rewrite bit_set by (rewrite repeat_length; exact Hd).
      rewrite bit_repeat. destruct (i =? d); [reflexivity |].
      destruct (i <? assignment_count w); reflexivity.
  - intros d Hd. unfold gen_var, FixedBitSet.set_checked. simpl.
    unfold FixedBitSet.len, FixedBitSet.with_capacity. rewrite repeat_length.
    replace (d <? assignment_count w) with false by (symmetry; apply Nat.ltb_ge; exact Hd).
    reflexivity.
Qed.

Lemma gen_var_single_bit_witness :
  gen_var (Assignment 1 (OpBinary Add 1 1) (info 3)) (weight straight_graph) = Panic IndexOutOfBounds /\
  exists g, gen_var (Assignment 1 (OpBinary Add 1 1) (info 2)) (weight straight_graph) = Ok g /\
    FixedBitSet.len (value g) = 3 /\ forall i, FixedBitSet.bit (value g) i = (i =? 2).
Proof.
  split.
  - apply (proj1 (proj2 (gen_var_single_bit 1 (OpBinary Add 1 1) (weight straight_graph))) 3).
    simpl. lia.
  - apply (proj1 (gen_var_single_bit 1 (OpBinary Add 1 1) (weight straight_graph)) 2).
    simpl. lia.
Defined.

(** For an input fact of any size, [transfer_forward] returns a vector of
    [max(len in, assignment_count)] bits that keeps every bit of [in]
    below [assignment_count] and clears every bit at or past it. *)
Theorem transfer_forward_bits (node : CodeBlockAnalysisNode) (in_value : ReachLattice)
  (graph : DataFlowGraph) :
  FixedBitSet.len (value (transfer_forward node in_value graph))
    = Nat.max (FixedBitSet.len (value in_value)) (assignment_count (weight graph)) /\
  forall i, FixedBitSet.bit (value (transfer_forward node in_value graph)) i
    = FixedBitSet.bit (value in_value) i && (i <? assignment_count (weight graph)).
Proof.
  unfold transfer_forward, FixedBitSet.len. simpl. split.
  - rewrite union_with_length, intersect_with_length.
    unfold FixedBitSet.with_capacity. rewrite repeat_length. reflexivity.
  - intros i. rewrite bit_union_with, bit_intersect_with.
    unfold FixedBitSet.toggle_all, FixedBitSet.with_capacity. rewrite map_repeat. simpl.
    rewrite !bit_repeat. destruct (i <? assignment_count (weight graph)); simpl;
      [apply orb_false_r | rewrite andb_false_r; reflexivity].
Qed.

(** ** Allocation by declare_space *)

Lemma nth_error_some_lt {A} (l : list A) (n : nat) (x : A) :
  nth_error l n = Some x -> n < List.length l.
Proof. intros H. apply nth_error_Some. congruence. Qed.

Definition alloc_post (n : nat) (sc : Scope) (p p' : Pool) : Prop :=
  extends p p' /\
  List.length (arena p') = List.length (arena p) + n /\
  (forall i s, List.length (arena p) <= i -> pool_get p' i = Some s ->
               scope s = sc /\ space_value s = FTop).

Lemma pool_get_extends_back (p p' : Pool) (i : nat) (s : Space) :
  extends p p' -> i < List.length (arena p) -> pool_get p' i = Some s -> pool_get p i = Some s.
Proof.
  intros Hx Hi H. destruct (pool_get p i) as [s' |] eqn:E.
  - rewrite (pool_get_extends _ _ _ _ Hx E) in H. exact H.
  - unfold pool_get in E. apply nth_error_None in E. lia.
Qed.

Lemma decl_members_alloc (f : DataType -> Pool -> (SpaceNameId * nat) * Pool) (sc : Scope)
  (ts : list DataType) :
  Forall (fun t => forall p, alloc_post (space_count t) sc p (snd (f t p))) ts ->
  forall p ms p', decl_members f ts p = (ms, p') ->
  alloc_post (fold_right (fun t acc => space_count t + acc) 0 ts) sc p p'.
Proof.
  induction 1 as [| t ts Ht Hts IH]; intros p ms p' E; simpl in E.
  - inversion E; subst. split; [apply extends_refl |]. split; [simpl; lia |].
    intros i s Hi Hs. unfold pool_get in Hs. apply nth_error_some_lt in Hs. simpl in Hs. lia.
  - destruct (f t p) as [r p1] eqn:Ef. destruct (decl_members f ts p1) as [ms0 p2] eqn:Er.
    inversion E; subst ms p2. clear E.
    pose proof (Ht p) as Hp. rewrite Ef in Hp. destruct Hp as (Hx1 & Hl1 & Hn1). simpl in *.
    destruct (IH p1 ms0 p' Er) as (Hx2 & Hl2 & Hn2). simpl in *.
    split; [eapply extends_trans; eauto |]. split; [lia |].
    intros i s Hi Hs. destruct (Nat.ltb_spec i (List.length (arena p1))).
    + apply (Hn1 i s Hi). eapply pool_get_extends_back; eauto.
    + apply (Hn2 i s); [lia | exact Hs].
Qed.

Lemma fold_count_repeat (e : DataType) (n : nat) :
  fold_right (fun t acc => space_count t + acc) 0 (repeat e n) = n * space_count e.
Proof. induction n as [| n IH]; simpl; [reflexivity | rewrite IH; reflexivity]. Qed.

Lemma insert_alloc (ty : option DataType) (sc : Scope) (p p1 : Pool) ms n :
  alloc_post n sc p p1 ->
  alloc_post (S n) sc p (snd (pool_insert p1 {| signature := Normal ty ms; scope := sc;
                                           space_value := FTop |})).
Proof.
  intros (Hx & Hl & Hn). simpl in *. split; [| split].
  - eapply extends_trans; [exact Hx | apply extends_insert].
  - simpl. rewrite length_app. simpl. lia.
  - intros i s Hi Hs. simpl in Hs. destruct (Nat.ltb_spec i (List.length (arena p1))).
    + apply (Hn i s Hi). unfold pool_get in *. simpl in Hs. rewrite nth_error_app1 in Hs by lia.
      exact Hs.
    + unfold pool_get in Hs. simpl in Hs. rewrite nth_error_app2 in Hs by lia.
      destruct (i - List.length (arena p1)) as [| k]; simpl in Hs.
      * inversion Hs; subst. split; reflexivity.
      * destruct k; discriminate.
Qed.

Lemma decl_ty_alloc (t : DataType) :
  forall sc p, alloc_post (space_count t) sc p (snd (decl_ty t sc p)).
Proof.
  induction t as [| | | e n IH | ts IH |] using DataType_ind'; intros sc p;
    try (apply (insert_alloc _ _ _ _ [] 0); split; [apply extends_refl | split; [simpl; lia |]];
         intros i s Hi Hs; unfold pool_get in Hs; apply nth_error_some_lt in Hs; lia).
  - cbn [decl_ty]. destruct (decl_repeat (decl_ty e sc) n p) as [ms p1] eqn:E.
    rewrite (decl_repeat_as_members _ e) in E.
    apply decl_members_alloc with (sc := sc) in E.
    + rewrite fold_count_repeat in E. apply insert_alloc. exact E.
    + apply Forall_forall. intros x Hx. apply repeat_spec in Hx. subst x. apply IH.
  - cbn [decl_ty]. destruct (decl_members (fun dt => decl_ty dt sc) ts p) as [ms p1] eqn:E.
    apply decl_members_alloc with (sc := sc) in E.
    + apply insert_alloc. exact E.
    + eapply Forall_impl; [| exact IH]. simpl. intros x Hx. apply Hx.
Qed.

(** [declare_space] of type [t] appends exactly [space_count t] Spaces to
    the pool (the aggregate and, recursively, its members: an array of [n]
    elements counts [n] times its element), leaves the existing Spaces
    untouched, gives every new Space the requested scope and the value
    [Top], and returns the id of the last one allocated, the aggregate.
    With no type it appends one Space. *)
Theorem declare_space_allocation (t : option DataType) (sc : Scope) (p : Pool) :
  let r := declare_space t sc p in
  let n := match t with Some t => space_count t | None => 1 end in
  extends p (snd r) /\
  List.length (arena (snd r)) = List.length (arena p) + n /\
  S (snd (fst r)) = List.length (arena (snd r)) /\
  fst (fst r) = origin p + snd (fst r) /\
  (forall i s, List.length (arena p) <= i -> pool_get (snd r) i = Some s ->
               scope s = sc /\ space_value s = FTop).
Proof.
  intros r n. pose proof (declare_space_post t sc p) as (_ & _ & Hs & Hn & _).
  assert (H : alloc_post n sc p (snd r)).
  { unfold r, n. destruct t as [t |]; [apply decl_ty_alloc |].
    apply (insert_alloc _ _ _ _ [] 0). split; [apply extends_refl | split; [simpl; lia |]].
    intros i s Hi Hs'. unfold pool_get in Hs'. apply nth_error_some_lt in Hs'. lia. }
  destruct H as (Hx & Hl & Hsc). split; [exact Hx |]. split; [exact Hl |].
  split; [exact Hs | split; [exact Hn | exact Hsc]].
Qed.

Example space_count_sample :
  List.length (arena (snd (declare_space (Some (Array (Struct [I64; Array TBool 2]) 3)) Global sample_pool)))
  = 16 /\ space_count (Array (Struct [I64; Array TBool 2]) 3) = 16.
Proof. split; reflexivity. Qed.

(** ** Globals *)

Lemma declare_global_bound (P : Program) (name : string) (dt : option DataType) :
  lookup_global_by_name (snd (declare_global P name dt)) name = Some (fst (declare_global P name dt)) /\
  extends (space_pool P) (space_pool (snd (declare_global P name dt))) /\
  globals (snd (declare_global P name dt)) = (name, fst (fst (declare_global P name dt))) :: globals P.
Proof.
  pose proof (declare_space_post dt Global (space_pool P)) as Hp.
  pose proof (decl_post_get_id _ _ _ _ Hp) as Hid. destruct Hp as (Hx & _).
  unfold declare_global, Program_declare_space.
  destruct (declare_space dt Global (space_pool P)) as [[n i] p'] eqn:E. simpl in *.
  split; [| split; [exact Hx | reflexivity]].
  unfold lookup_global_by_name, get_name_id_and_id. simpl. rewrite String.eqb_refl, Hid.
  reflexivity.
Qed.

Lemma get_name_id_and_id_extends {K} (eqb : K -> K -> bool) (m : NameMap K) (p p' : Pool) (k : K) g :
  extends p p' -> get_name_id_and_id eqb m p k = Some g -> get_name_id_and_id eqb m p' k = Some g.
Proof.
  unfold get_name_id_and_id. intros Hx. destruct (get_name_id eqb m k) as [n |]; [| discriminate].
  destruct (pool_get_id p n) eqn:E; simpl; [| discriminate].
  rewrite (pool_get_id_extends _ _ _ _ Hx E). auto.
Qed.

(** After [declare_global(name, ty)], [name] resolves to the new Space and
    every other global name that resolved before still resolves to the
    same Space. *)
Theorem declare_global_lookup (P : Program) (name : string) (dt : option DataType) :
  lookup_global_by_name (snd (declare_global P name dt)) name = Some (fst (declare_global P name dt)) /\
  (forall name' g, name' <> name -> lookup_global_by_name P name' = Some g ->
     lookup_global_by_name (snd (declare_global P name dt)) name' = Some g).
Proof.
  destruct (declare_global_bound P name dt) as (H1 & Hx & Hg). split; [exact H1 |].
  intros name' g Hne H. unfold lookup_global_by_name in *. rewrite Hg.
  unfold get_name_id_and_id in *. simpl.
  replace (String.eqb name' name) with false by (symmetry; apply String.eqb_neq; exact Hne).
  fold (get_name_id_and_id String.eqb (globals P) (space_pool (snd (declare_global P name dt))) name').
  eapply get_name_id_and_id_extends; [exact Hx |]. exact H.
Qed.

Lemma declare_global_lookup_witness :
  lookup_global_by_name (snd (declare_global sample_program "y" None)) "x" = Some (1, 0).
Proof.
  apply (proj2 (declare_global_lookup sample_program "y" None) "x"%string (1, 0)).
  - discriminate.
  - reflexivity.
Defined.

(** [lookup_or_insert_global] is idempotent: a second call with the same
    name returns the same ids and leaves the Program unchanged. *)
Theorem lookup_or_insert_global_idempotent (P : Program) (name : string) r P1 :
  lookup_or_insert_global P name = (r, P1) -> lookup_or_insert_global P1 name = (r, P1).
Proof.
  unfold lookup_or_insert_global. destruct (lookup_global_by_name P name) as [g |] eqn:E.
  - intros H. inversion H; subst. rewrite E. reflexivity.
  - intros H. destruct (declare_global_bound P name None) as (H1 & _). rewrite H in H1.
    simpl in H1. rewrite H1. reflexivity.
Qed.

Lemma lookup_or_insert_global_idempotent_witness :
  lookup_or_insert_global (snd (lookup_or_insert_global sample_program "y")) "y"
  = lookup_or_insert_global sample_program "y".
Proof.
  apply (lookup_or_insert_global_idempotent sample_program "y"
           (fst (lookup_or_insert_global sample_program "y"))
           (snd (lookup_or_insert_global sample_program "y"))).
  reflexivity.
Defined.

(** ** Constants *)

Lemma constant_again (P : Program) (dt1 dt2 : DataType) (v : Value) r P1 :
  lookup_or_insert_constant P dt1 v = Ok (r, P1) ->
  lookup_or_insert_constant P1 dt2 v = Ok (r, P1).
Proof.
  unfold lookup_or_insert_constant, get_id_or_insert.
  destruct (get_name_id Value_eqb (constants P) v) as [n |] eqn:E.
  - destruct (pool_get_id (space_pool P) n) as [i |] eqn:Ei; intros H; inversion H; subst.
    simpl. rewrite E, Ei. reflexivity.
  - intros H. inversion H; subst. simpl.
    rewrite (proj2 (Value_eqb_spec v v) eq_refl).
    unfold pool_get_id. simpl. rewrite length_app. simpl.
    replace (origin (space_pool P) <=? origin (space_pool P) + List.length (arena (space_pool P)))
      with true by (symmetry; apply Nat.leb_le; lia).
    replace (origin (space_pool P) + List.length (arena (space_pool P)) <?
             origin (space_pool P) + (List.length (arena (space_pool P)) + 1))
      with true by (symmetry; apply Nat.ltb_lt; lia).
    simpl. rewrite Nat.add_comm, Nat.add_sub. reflexivity.
Qed.

(** [lookup_or_insert_constant] is idempotent whatever type the second
    request carries: it returns the same ids and leaves the Program
    unchanged. *)
Theorem lookup_or_insert_constant_idempotent (P : Program) (dt1 dt2 : DataType) (v : Value) r P1 :
  lookup_or_insert_constant P dt1 v = Ok (r, P1) ->
  lookup_or_insert_constant P1 dt2 v = Ok (r, P1).
Proof. apply constant_again. Qed.

Lemma lookup_or_insert_constant_idempotent_witness :
  lookup_or_insert_constant sample_program I64 (VInt {| int_value := 5 |}) = Ok ((2, 1),
    {| space_pool := {| origin := 1; arena := arena (space_pool sample_program) ++
         [{| signature := Normal (Some I64) []; scope := Global;
             space_value := FValue (VInt {| int_value := 5 |}) |}] |};
       globals := globals sample_program;
       constants := [(VInt {| int_value := 5 |}, 2)] |}) /\
  lookup_or_insert_constant
    {| space_pool := {| origin := 1; arena := arena (space_pool sample_program) ++
         [{| signature := Normal (Some I64) []; scope := Global;
             space_value := FValue (VInt {| int_value := 5 |}) |}] |};
       globals := globals sample_program;
       constants := [(VInt {| int_value := 5 |}, 2)] |} F64 (VInt {| int_value := 5 |})
  = Ok ((2, 1),
    {| space_pool := {| origin := 1; arena := arena (space_pool sample_program) ++
         [{| signature := Normal (Some I64) []; scope := Global;
             space_value := FValue (VInt {| int_value := 5 |}) |}] |};
       globals := globals sample_program;
       constants := [(VInt {| int_value := 5 |}, 2)] |}).
Proof.
  split; [reflexivity |].
  apply (lookup_or_insert_constant_idempotent sample_program I64 F64 (VInt {| int_value := 5 |})).
  reflexivity.
Defined.

(** ** Name resolution, repeated *)

Lemma declare_local_then_lookup (F : Function) (P : Program) (name : string) (dt : option DataType)
  nid sid P' F' :
  declare_local F P name dt = ((nid, sid), P', F') ->
  lookup_or_insert_space F' P' name = Ok ((nid, sid), P', F').
Proof.
  intros E. unfold declare_local, Function_declare_space in E.
  pose proof (declare_space_post dt (Local (fn_name_id F)) (space_pool P)) as Hp.
  apply decl_post_get_id in Hp.
  destruct (declare_space dt (Local (fn_name_id F)) (space_pool P)) as [[n s] p'].
  inversion E; subst. clear E. simpl in Hp.
  unfold lookup_or_insert_space, lookup_space. simpl. rewrite String.eqb_refl, Hp. reflexivity.
Qed.

(** [Function::lookup_or_insert_space] is idempotent: once a name has
    been resolved (possibly by declaring a new local), resolving it again
    returns the same ids and changes neither the Program nor the
    Function. *)
Theorem lookup_or_insert_space_idempotent (F : Function) (P : Program) (name : string) r P1 F1 :
  lookup_or_insert_space F P name = Ok (r, P1, F1) ->
  lookup_or_insert_space F1 P1 name = Ok (r, P1, F1).
Proof.
  unfold lookup_or_insert_space at 1.
  destruct (get_name_id String.eqb (locals F) name) as [nid |] eqn:El.
  - destruct (lookup_space P nid) as [i |] eqn:Ei; intros H; inversion H; subst.
    unfold lookup_or_insert_space. rewrite El, Ei. reflexivity.
  - destruct (lookup_global_by_name P name) as [g |] eqn:Eg; intros H.
    + inversion H; subst. unfold lookup_or_insert_space. rewrite El, Eg. reflexivity.
    + assert (E : declare_local F P name None = (r, P1, F1)) by congruence.
      destruct r as [nid sid]. apply (declare_local_then_lookup F P name None). exact E.
Qed.

Lemma lookup_or_insert_space_idempotent_witness :
  lookup_or_insert_space {| fn_name_id := 1; locals := [("y"%string, 2)] |}
    (set_pool sample_program {| origin := 1; arena := arena (space_pool sample_program) ++
       [{| signature := Normal None []; scope := Local 1; space_value := FTop |}] |}) "y"
  = Ok ((2, 1), set_pool sample_program {| origin := 1; arena := arena (space_pool sample_program) ++
       [{| signature := Normal None []; scope := Local 1; space_value := FTop |}] |},
        {| fn_name_id := 1; locals := [("y"%string, 2)] |}).
Proof.
  apply (lookup_or_insert_space_idempotent sample_function sample_program "y").
  reflexivity.
Defined.

(** ** Literal addition *)


(** [IntValue::binary] with [Add]: with overflow checks it panics exactly
    when the sum leaves the [i64] range; without them it always returns an
    [i64] congruent to the exact sum modulo [2^64] (two's-complement
    wrap-around); a missing operand panics in [unwrap]. *)
Theorem int_add_overflow_behaviour (a b : IntValue) :
  (IntValue_binary true a Add (Some b) = Panic AddOverflow <->
     in_i64 (int_value a + int_value b)%Z = false) /\
  (exists r, IntValue_binary false a Add (Some b) = Ok r /\
     in_i64 (int_value r) = true /\
     (int_value r mod 2 ^ 64 = (int_value a + int_value b) mod 2 ^ 64)%Z) /\
  (forall ch, IntValue_binary ch a Add None = Panic UnwrapNone).
Proof.
  unfold IntValue_binary, i64_add. split; [| split; [| reflexivity]].
  - destruct (in_i64 (int_value a + int_value b)); split; intros H; try discriminate; reflexivity.
  - destruct (in_i64 (int_value a + int_value b)) eqn:E.
    + eexists. split; [reflexivity |]. split; [exact E | reflexivity].
    + eexists. split; [reflexivity |]. apply wrap_i64_spec.
Qed.

(** ** Strong count of the Program *)

Module RcFacts.
Import RcHeap.

(** The Program's cell with its strong count, the freshness of the next
    address and the pool's liveness are kept by every call. *)
Definition world_inv (w : World) : Prop :=
  program w < next (heap w) /\ function_pool w < next (heap w) /\
  function_pool w <> program w /\
  alive (heap w) (function_pool w) = true /\
  option_map strong (cells (heap w) (program w)) = Some (S (List.length (function_names w))).

Lemma program_new_inv : world_inv program_new.
Proof. vm_compute. repeat split; try lia; discriminate. Qed.

Lemma lookup_or_insert_function_inv (w : World) (name : string) :
  world_inv w ->
  world_inv (lookup_or_insert_function w name) /\
  program (lookup_or_insert_function w name) = program w.
Proof.
  intros (Hp & Hf & Hne & Ha & Hs). unfold lookup_or_insert_function.
  destruct (existsb (String.eqb name) (function_names w)).
  { split; [repeat split; assumption | reflexivity]. }
  destruct (cells (heap w) (program w)) as [o |] eqn:Eo; [| discriminate].
  simpl in Hs. injection Hs as Hs.
  unfold alive in Ha. destruct (cells (heap w) (function_pool w)) as [fo |] eqn:Ef; [| discriminate].
  split; [| reflexivity].
  unfold world_inv, inc, alloc, store, drop, upd, alive; simpl.
  repeat (first [ rewrite Eo | rewrite Ef | progress simpl
                | match goal with
                  | |- context [Nat.eqb ?a ?b] => destruct (Nat.eqb_spec a b); simpl in *; try lia
                  end ]).
  repeat split; try lia. f_equal. lia.
Qed.

Lemma function_names_nonempty (w : World) (name : string) :
  function_names (lookup_or_insert_function w name) <> [].
Proof.
  unfold lookup_or_insert_function. destruct (existsb (String.eqb name) (function_names w)) eqn:E.
  - intros H. rewrite H in E. discriminate.
  - simpl. discriminate.
Qed.

Lemma fold_functions_inv (names : list string) (w : World) :
  world_inv w ->
  world_inv (fold_left lookup_or_insert_function names w) /\
  program (fold_left lookup_or_insert_function names w) = program w /\
  (names <> [] \/ function_names w <> [] ->
   function_names (fold_left lookup_or_insert_function names w) <> []).
Proof.
  revert w. induction names as [| n r IH]; intros w Hw; simpl.
  - split; [exact Hw | split; [reflexivity |]]. intros [H | H]; [congruence | exact H].
  - destruct (lookup_or_insert_function_inv w n Hw) as [Hw1 Hp1].
    destruct (IH _ Hw1) as (H1 & H2 & H3). split; [exact H1 |]. split; [congruence |].
    intros _. apply H3. right. apply function_names_nonempty.
Qed.

(** After [Program::new] and any sequence of [lookup_or_insert_function]
    calls, the Program's strong count is one (the caller's handle) plus
    the number of distinct Functions created; so when the caller drops its
    handle the Program stays allocated exactly when at least one Function
    was created. *)
Theorem program_strong_count (names : list string) :
  let w := fold_left lookup_or_insert_function names program_new in
  option_map strong (cells (heap w) (program w)) = Some (S (List.length (function_names w))) /\
  (alive (drop_program_root w) (program w) = true <-> names <> []).
Proof.
  intros w. destruct (fold_functions_inv names program_new program_new_inv) as (Hinv & Hp & Hne).
  fold w in Hinv, Hp, Hne. destruct Hinv as (_ & _ & _ & _ & Hs). split; [exact Hs |].
  destruct names as [| n r].
  - subst w. simpl. split; [vm_compute; discriminate | intros H; congruence].
  - split; [intros _; discriminate |]. intros _.
    assert (Hn : function_names w <> []) by (apply Hne; left; discriminate).
    unfold drop_program_root, drop, alive. simpl.
    destruct (cells (heap w) (program w)) as [o |]; [| discriminate]. simpl in Hs.
    injection Hs as Hs. rewrite Hs.
    destruct (function_names w) as [| f fs]; [congruence |]. simpl.
    rewrite Nat.eqb_refl. reflexivity.
Qed.


Lemma program_strong_count_witness :
  alive (drop_program_root (fold_left lookup_or_insert_function ["main"%string; "main"%string]
                              program_new))
        (program (fold_left lookup_or_insert_function ["main"%string; "main"%string] program_new))
  = true.
Proof.
  apply (proj2 (program_strong_count ["main"%string; "main"%string])). discriminate.
Defined.

End RcFacts.
